(* Verification development for the amuletc driver (rex-c).

   src/main.rs is the command-line entry point: it parses a `compile`
   subcommand, builds a `Compiler`, runs `compile()` and prints
   `contents`.  The `Compiler` itself lives in the `amuletc` library crate,
   whose source is not part of src/; module [Pipeline] below models it
   from the spec (pipeline driver, diagnostics collector, source loader),
   keeping the grammar-specific stages (lexer, parser, analyzer, emitter)
   as parameters, since the spec leaves the grammar and the target format
   to the implementer. *)

From Stdlib Require Import String Ascii List Bool Arith Lia.
From Stdlib Require Import Sorting.Sorted Sorting.Permutation.
Import ListNotations.

(** Rust's [Result<T, E>]. *)
Inductive result (A E : Type) : Type :=
| Ok (a : A)
| Err (e : E).
Arguments Ok {A E} a.
Arguments Err {A E} e.

Definition path := string.

(* ------------------------------------------------------------------ *)
(** * The command-line driver (src/main.rs) *)
Module Driver.

(** [amuletc::commandline::Commands]: the `compile {input, output}`
    subcommand; any other subcommand falls in the `_ => {}` arm of [main]. *)
Inductive Commands : Type :=
| Compile (input output : path)
| OtherCommand (name : string).

(** [amuletc::commandline::Cli]: [command] is optional. *)
Record Cli : Type := mkCli { command : option Commands }.

Section Main.
(** The [Compiler] interface used by [main]: [Compiler::new],
    [compile(&mut self) -> Result<()>] and the [contents] field.  Effects
    on the outside world (file system) are threaded through [World]. *)
Variables Compiler Error World : Type.
Variable Compiler_new : path -> path -> World -> result Compiler Error * World.
Variable Compiler_compile : Compiler -> World -> (result unit Error * Compiler) * World.
Variable contents : Compiler -> string.

(** [fn main() -> Result<()>], after [Cli::parse()]; the last component
    is what [println!] wrote to standard output, in order.  [?]
    propagates the error unchanged (anyhow wraps it losslessly). *)
Definition main (cli : Cli) (w : World) : result unit Error * World * list string :=
  match command cli with
  | Some (Compile input output) =>
      match Compiler_new input output w with
      | (Err e, w1) => (Err e, w1, [])
      | (Ok compiler, w1) =>
          match Compiler_compile compiler w1 with
          | ((Err e, _), w2) => (Err e, w2, [])
          | ((Ok tt, compiler'), w2) => (Ok tt, w2, [contents compiler'])
          end
      end
  | _ => (Ok tt, w, [])
  end.
(** C10: [main] prints [contents] exactly when the subcommand is
    `compile` and both [Compiler::new] and [compile()] return [Ok]; an
    error of either call is [main]'s own result, with nothing printed and
    [contents] not read; any other or missing subcommand touches nothing,
    builds no compiler and returns [Ok(())]. *)
Theorem main_prints_contents_only_on_success (cli : Cli) (w : World) :
  match command cli with
  | Some (Compile input output) =>
      match Compiler_new input output w with
      | (Err e, w1) => main cli w = (Err e, w1, [])
      | (Ok c, w1) =>
          match Compiler_compile c w1 with
          | ((Err e, _), w2) => main cli w = (Err e, w2, [])
          | ((Ok _, c'), w2) => main cli w = (Ok tt, w2, [contents c'])
          end
      end
  | _ => main cli w = (Ok tt, w, [])
  end.
Proof.
  unfold main.
  destruct (command cli) as [[input output | name] |]; try reflexivity.
  destruct (Compiler_new input output w) as [[c | e] w1]; [| reflexivity].
  destruct (Compiler_compile c w1) as [[[[] | e] c'] w2]; reflexivity.
Qed.
End Main.

End Driver.

(* ------------------------------------------------------------------ *)
(** * The compiler pipeline (crate amuletc, modelled from the spec) *)
Module Pipeline.

(** Span: (start offset, end offset, line, column). *)
Record Span : Type := mkSpan
  { sp_start : nat; sp_end : nat; sp_line : nat; sp_col : nat }.

Inductive Severity : Type := SevError | SevWarning.

(** The diagnostic-level error kinds of the taxonomy. *)
Inductive DiagKind : Type := LexError | SyntaxError | NameError | TypeError.

Record Diagnostic : Type := mkDiag
  { severity : Severity; kind : DiagKind; message : string;
    primary : Span; related : list Span }.

(** Modelled from the spec: the error type of [Compiler::new] and
    [compile()].  [CompileError] aggregates the diagnostics of a failed
    run; the fatal [EmitError] also carries the run's diagnostics, since a
    failing [compile()] hands back the full diagnostic list. *)
Inductive Error : Type :=
| IOError (p : path)
| EncodingError (p : path)
| CompileError (diags : list Diagnostic)
| EmitError (msg : string) (diags : list Diagnostic).

(** Modelled from the spec: SourceFile, the immutable loaded buffer. *)
Record SourceFile : Type := mkSource { sf_path : path; sf_text : string }.

(** The stage at which a run failed. *)
Inductive FailStage : Type := AtLex | AtParse | AtAnalyze | AtEmit.

(** Modelled from the spec: the driver's state machine (section 4.6). *)
Inductive State : Type :=
| Created | Loaded | Lexed | Parsed | Analyzed | Emitted
| Failed (at_stage : FailStage).

(** Modelled from the spec: [Compiler] owns both paths, the loaded
    source, the state, the diagnostic list and the final [contents]
    ([None] while unpopulated).  [persist_error] is the separate,
    distinguishable report of a failed write of the artifact. *)
Record Compiler : Type := mkCompiler
  { input_path : path; output_path : path; source : SourceFile;
    state : State; diagnostics : list Diagnostic;
    contents : option string; persist_error : option Error }.

(** Observable events of a run: file-system accesses and the stages run,
    each stage with the diagnostics it reported. *)
Inductive Event : Type :=
| EvLoad (p : path)
| EvPrepare (p : path)
| EvLex (ds : list Diagnostic)
| EvParse (ds : list Diagnostic)
| EvAnalyze (ds : list Diagnostic)
| EvEmit (ok : bool)
| EvWrite (p : path).

(** The outside world: readable files ([None]: missing or unreadable),
    writable directories, whether a write would succeed now, the files
    written so far (oldest first) and the event trace. *)
Record World : Type := mkWorld
  { fs_read : path -> option string;
    fs_dir_writable : path -> bool;
    fs_can_write : path -> bool;
    fs_written : list (path * string);
    trace : list Event }.

(** A small state monad over [World]. *)
Definition M (A : Type) : Type := World -> A * World.

Definition ret {A : Type} (a : A) : M A := fun w => (a, w).

Definition bind {A B : Type} (m : M A) (k : A -> M B) : M B :=
  fun w => let (a, w1) := m w in k a w1.

Notation "x <- m ;; k" := (bind m (fun x => k))
  (at level 61, m at next level, right associativity).

Definition log (e : Event) : M unit :=
  fun w => (tt, mkWorld (fs_read w) (fs_dir_writable w) (fs_can_write w)
                        (fs_written w) (trace w ++ [e])).

Definition read_file (p : path) : M (option string) := fun w => (fs_read w p, w).

Definition dir_writable (p : path) : M bool := fun w => (fs_dir_writable w p, w).

(** Writing a file: the attempt is logged; the file is recorded only when
    the write succeeds. *)
Definition write_file (p : path) (s : string) : M bool :=
  _ <- log (EvWrite p) ;;
  fun w =>
    if fs_can_write w p
    then (true, mkWorld (fs_read w) (fs_dir_writable w) (fs_can_write w)
                        (fs_written w ++ [(p, s)]) (trace w))
    else (false, w).

(** Diagnostics collector. *)
Definition is_error (d : Diagnostic) : bool :=
  match severity d with SevError => true | SevWarning => false end.

Definition has_error (ds : list Diagnostic) : bool := existsb is_error ds.

Definition pos (d : Diagnostic) : nat := sp_start (primary d).

(** Insert after every diagnostic at the same or an earlier position. *)
Fixpoint insert_diag (d : Diagnostic) (ds : list Diagnostic) : list Diagnostic :=
  match ds with
  | [] => [d]
  | d' :: ds' => if pos d' <=? pos d then d' :: insert_diag d ds' else d :: ds
  end.

(** Modelled from the spec: the collector merges a stage's diagnostics
    into the run's list, kept in source order, dropping none. *)
Definition record (acc ds : list Diagnostic) : list Diagnostic :=
  fold_left (fun acc d => insert_diag d acc) ds acc.

Definition with_outcome (c : Compiler) (st : State) (ds : list Diagnostic)
    (cts : option string) (pe : option Error) : Compiler :=
  mkCompiler (input_path c) (output_path c) (source c) st ds cts pe.

(** The diagnostics a stage reported, read off the trace. *)
Definition stage_diags (e : Event) : list Diagnostic :=
  match e with
  | EvLex ds | EvParse ds | EvAnalyze ds => ds
  | _ => []
  end.

(** The diagnostic list an error carries, if any. *)
Definition error_diagnostics (e : Error) : option (list Diagnostic) :=
  match e with
  | CompileError ds | EmitError _ ds => Some ds
  | IOError _ | EncodingError _ => None
  end.

(** What a caller observes of a [compile()] run: its result, [contents],
    diagnostics and final state. *)
Definition outcome (x : (result unit Error * Compiler) * World)
    : result unit Error * option string * list Diagnostic * State :=
  let '((r, c), _) := x in (r, contents c, diagnostics c, state c).

Section Stages.
(** The grammar-specific stages, left open by the spec. *)
Variables Token Tree : Type.
Variable valid_encoding : string -> bool.
Variable parent : path -> path.
Variable tokenize : SourceFile -> list Token * list Diagnostic.
Variable parse : list Token -> Tree * list Diagnostic.
Variable analyze : Tree -> Tree * list Diagnostic.
Variable emit : Tree -> result string string.

(** Modelled from the spec: SourceLoader [load(input_path)]. *)
Definition load (p : path) : M (result SourceFile Error) :=
  _ <- log (EvLoad p) ;;
  o <- read_file p ;;
  ret (match o with
       | None => Err (IOError p)
       | Some text =>
           if valid_encoding text then Ok (mkSource p text)
           else Err (EncodingError p)
       end).

(** Modelled from the spec: SourceLoader [prepare_output(output_path)]:
    checks the parent directory, writes nothing. *)
Definition prepare_output (p : path) : M (result unit Error) :=
  _ <- log (EvPrepare p) ;;
  ok <- dir_writable (parent p) ;;
  ret (if ok then Ok tt else Err (IOError p)).

(** Modelled from the spec: [Compiler::new(input_path, output_path)],
    [Created -> Loaded]. *)
Definition new (ip op : path) : M (result Compiler Error) :=
  r <- load ip ;;
  match r with
  | Err e => ret (Err e)
  | Ok sf =>
      r2 <- prepare_output op ;;
      match r2 with
      | Err e => ret (Err e)
      | Ok _ => ret (Ok (mkCompiler ip op sf Loaded [] None None))
      end
  end.

Definition fail (c : Compiler) (st : FailStage) (ds : list Diagnostic) (e : Error)
    : M (result unit Error * Compiler) :=
  ret (Err e, with_outcome c (Failed st) ds None None).

(** Modelled from the spec: [compile(&mut self)] runs
    [Loaded -> Lexed -> Parsed -> Analyzed -> Emitted] from the loaded
    source, stopping at the first stage whose diagnostics include an
    error; nothing of an earlier run is read. *)
Definition compile (c : Compiler) : M (result unit Error * Compiler) :=
  let '(toks, d1) := tokenize (source c) in
  _ <- log (EvLex d1) ;;
  let ds1 := record [] d1 in
  if has_error ds1 then fail c AtLex ds1 (CompileError ds1) else
  let '(tree, d2) := parse toks in
  _ <- log (EvParse d2) ;;
  let ds2 := record ds1 d2 in
  if has_error ds2 then fail c AtParse ds2 (CompileError ds2) else
  let '(tree', d3) := analyze tree in
  _ <- log (EvAnalyze d3) ;;
  let ds3 := record ds2 d3 in
  if has_error ds3 then fail c AtAnalyze ds3 (CompileError ds3) else
  match emit tree' with
  | Err msg =>
      _ <- log (EvEmit false) ;;
      fail c AtEmit ds3 (EmitError msg ds3)
  | Ok art =>
      _ <- log (EvEmit true) ;;
      written <- write_file (output_path c) art ;;
      ret (Ok tt, with_outcome c Emitted ds3 (Some art)
                    (if written then None else Some (IOError (output_path c))))
  end.

(** ** Collector lemmas *)

Definition pos_le (d1 d2 : Diagnostic) : Prop := pos d1 <= pos d2.

Lemma insert_diag_perm d ds : Permutation (insert_diag d ds) (d :: ds).
Proof.
  induction ds as [| d' ds IH]; simpl; [reflexivity |].
  destruct (pos d' <=? pos d); [| reflexivity].
  rewrite IH. apply perm_swap.
Qed.

Lemma insert_diag_sorted d ds :
  Sorted pos_le ds -> Sorted pos_le (insert_diag d ds).
Proof.
  unfold pos_le. induction 1 as [| d' ds Hs IH Hhd]; simpl.
  - repeat constructor.
  - destruct (pos d' <=? pos d) eqn:E.
    + apply Nat.leb_le in E. constructor; [exact IH |].
      destruct ds as [| d'' ds]; simpl; [constructor; exact E |].
      inversion Hhd; subst.
      destruct (pos d'' <=? pos d); constructor; assumption.
    + apply Nat.leb_gt in E. constructor; [constructor; assumption |].
      constructor. lia.
Qed.

Lemma record_perm acc ds : Permutation (record acc ds) (acc ++ ds).
Proof.
  revert acc. induction ds as [| d ds IH]; intro acc; simpl.
  - rewrite app_nil_r. reflexivity.
  - unfold record in IH |- *. simpl. rewrite IH, insert_diag_perm.
    simpl. apply Permutation_middle.
Qed.

Lemma record_sorted acc ds : Sorted pos_le acc -> Sorted pos_le (record acc ds).
Proof.
  revert acc. induction ds as [| d ds IH]; intros acc H; simpl; [exact H |].
  apply IH, insert_diag_sorted, H.
Qed.

Lemma has_error_perm l l' : Permutation l l' -> has_error l = has_error l'.
Proof.
  unfold has_error. induction 1; simpl; try congruence.
  - destruct (is_error x), (is_error y); reflexivity.
Qed.

Lemma has_error_record acc ds :
  has_error (record acc ds) = has_error acc || has_error ds.
Proof.
  rewrite (has_error_perm _ _ (record_perm acc ds)).
  unfold has_error. apply existsb_app.
Qed.

(** Unfolds one run of the pipeline, case by case; the run's result is
    named [r], [c'], [w'] (hypothesis [Hrun]). *)
Ltac run_pipeline c w :=
  let r := fresh "r" in let c' := fresh "c'" in let w' := fresh "w'" in
  let Hrun := fresh "Hrun" in
  destruct (compile c w) as [[r c'] w'] eqn:Hrun; revert Hrun;
  unfold compile, fail, with_outcome, write_file, log, bind, ret;
  cbn -[record has_error];
  repeat match goal with
  | |- context [if has_error ?x then _ else _] =>
      let H := fresh "H" in destruct (has_error x) eqn:H; cbn -[record has_error]
  | |- context [match emit ?t with _ => _ end] =>
      let E := fresh "Em" in destruct (emit t) as [? | ?] eqn:E; cbn -[record has_error]
  | |- context [if fs_can_write ?w ?p then _ else _] =>
      let E := fresh "Wr" in destruct (fs_can_write w p) eqn:E; cbn -[record has_error]
  | |- context [let '(_, _) := ?x in _] =>
      let a := fresh "a" in let b := fresh "ds" in
      let E := fresh "E" in destruct x as [a b] eqn:E; cbn -[record has_error]
  end;
  intro Hrun; injection Hrun; clear Hrun; intros; subst.

(** ** Claims about the driver *)

(** C1: after every run of [compile()], [contents] is populated exactly
    when the run succeeded with no error-severity diagnostic (so a failed
    run leaves no artifact); a freshly constructed [Compiler] has no
    [contents]. *)
Theorem compile_contents_iff_success (c : Compiler) (w : World) :
  (let '((r, c'), _) := compile c w in
   ((exists a, contents c' = Some a) <->
      (r = Ok tt /\ has_error (diagnostics c') = false)) /\
   (forall e, r = Err e -> contents c' = None)) /\
  (forall ip op, match fst (new ip op w) with
                 | Ok c0 => contents c0 = None
                 | Err _ => True
                 end).
Proof.
  split.
  - run_pipeline c w; cbn; split; try (intros e He; first [reflexivity | discriminate]);
      split; intros Hx; try (destruct Hx as [? Hx]; discriminate);
      try (destruct Hx as [Hx _]; discriminate);
      first [ split; [reflexivity | assumption] | eexists; reflexivity ].
  - intros ip op. unfold new, load, prepare_output, log, read_file, dir_writable, bind, ret.
    cbn. destruct (fs_read w ip) as [text |]; cbn; [| exact I].
    destruct (valid_encoding text); cbn; [| exact I].
    destruct (fs_dir_writable w (parent op)); reflexivity.
Qed.

Lemma has_error_app l1 l2 : has_error (l1 ++ l2) = has_error l1 || has_error l2.
Proof. unfold has_error. apply existsb_app. Qed.

Lemma record_perm_app acc l ds :
  Permutation acc l -> Permutation (record acc ds) (l ++ ds).
Proof.
  intro H. eapply perm_trans; [apply record_perm |].
  apply Permutation_app_tail, H.
Qed.

Lemma compile_source c w : source (snd (fst (compile c w))) = source c.
Proof. run_pipeline c w; reflexivity. Qed.

(** A run's observable outcome depends on the loaded source only. *)
Lemma compile_outcome_source c1 c2 w1 w2 :
  source c1 = source c2 -> outcome (compile c1 w1) = outcome (compile c2 w2).
Proof.
  intro Hs. unfold outcome, compile, fail, with_outcome, write_file, log, bind, ret.
  rewrite Hs. destruct (tokenize (source c2)) as [toks d1]; cbn -[record has_error].
  destruct (has_error (record [] d1)); [reflexivity |].
  destruct (parse toks) as [tree d2]; cbn -[record has_error].
  destruct (has_error (record (record [] d1) d2)); [reflexivity |].
  destruct (analyze tree) as [tree' d3]; cbn -[record has_error].
  destruct (has_error (record (record (record [] d1) d2) d3)); [reflexivity |].
  destruct (emit tree'); cbn -[record has_error]; [| reflexivity].
  destruct (fs_can_write _ (output_path c1)), (fs_can_write _ (output_path c2));
    reflexivity.
Qed.

(** C2: [Compiler::new] only runs the SourceLoader: it loads the input and
    checks the output path, writes nothing and runs no later stage; it
    fails exactly when that validation fails, with [IOError] or
    [EncodingError], and otherwise yields a [Loaded] compiler with no
    diagnostics and no [contents]. *)
Theorem new_only_validates (ip op : path) (w : World) :
  let '(r, w') := new ip op w in
  (exists evs, trace w' = trace w ++ evs /\
     forall ev, In ev evs -> ev = EvLoad ip \/ ev = EvPrepare op) /\
  fs_written w' = fs_written w /\
  match r with
  | Err e =>
      (e = IOError ip \/ e = EncodingError ip \/ e = IOError op) /\
      (fs_read w ip = None \/
       (exists t, fs_read w ip = Some t /\ valid_encoding t = false) \/
       fs_dir_writable w (parent op) = false)
  | Ok c =>
      state c = Loaded /\ diagnostics c = [] /\ contents c = None /\
      input_path c = ip /\ output_path c = op /\
      exists t, fs_read w ip = Some t /\ valid_encoding t = true /\
                fs_dir_writable w (parent op) = true /\ source c = mkSource ip t
  end.
Proof.
  unfold new, load, prepare_output, log, read_file, dir_writable, bind, ret. cbn.
  destruct (fs_read w ip) as [t |] eqn:Hr; cbn.
  - destruct (valid_encoding t) eqn:Hv; cbn.
    + destruct (fs_dir_writable w (parent op)) eqn:Hd; cbn.
      * split; [exists [EvLoad ip; EvPrepare op]; split;
                [rewrite <- app_assoc; reflexivity | simpl; intuition] |].
        split; [reflexivity |].
        repeat split; eauto 6.
      * split; [exists [EvLoad ip; EvPrepare op]; split;
                [rewrite <- app_assoc; reflexivity | simpl; intuition] |].
        split; [reflexivity |]. split; [auto | right; right; reflexivity].
    + split; [exists [EvLoad ip]; split; [reflexivity | simpl; intuition] |].
      split; [reflexivity |]. split; [auto | right; left; eauto].
  - split; [exists [EvLoad ip]; split; [reflexivity | simpl; intuition] |].
    split; [reflexivity |]. split; auto.
Qed.

(** C3: calling [compile()] a second time, on the compiler the first call
    left, gives the same result, [contents] and diagnostics: each call
    re-runs the pipeline from the loaded source, and its outcome is the
    same for any compiler holding that source and any world. *)
Theorem compile_idempotent (c : Compiler) (w : World) :
  let '((r1, c1), w1) := compile c w in
  let '((r2, c2), w2) := compile c1 w1 in
  r1 = r2 /\ contents c1 = contents c2 /\ diagnostics c1 = diagnostics c2 /\
  (forall c0 w0, source c0 = source c ->
     outcome (compile c0 w0) = outcome (compile c w)).
Proof.
  destruct (compile c w) as [[r1 c1] w1] eqn:H1.
  pose proof (compile_source c w) as Hs. rewrite H1 in Hs. cbn in Hs.
  pose proof (compile_outcome_source c1 c w1 w Hs) as Ho. rewrite H1 in Ho.
  destruct (compile c1 w1) as [[r2 c2] w2] eqn:H2.
  cbn in Ho. injection Ho as -> -> -> _.
  repeat split.
  intros c0 w0 Hc0. rewrite <- H1. apply compile_outcome_source, Hc0.
Qed.

(** C5: a failing [compile()] returns an error carrying the compiler's
    whole diagnostic list: every diagnostic any stage of the run
    reported, none dropped, in source order. *)
Theorem compile_failure_carries_all_diagnostics (c : Compiler) (w : World) :
  let '((r, c'), w') := compile c w in
  match r with
  | Ok _ => True
  | Err e =>
      exists ds evs, error_diagnostics e = Some ds /\ ds = diagnostics c' /\
        trace w' = trace w ++ evs /\
        Permutation ds (flat_map stage_diags evs) /\ Sorted pos_le ds
  end.
Proof.
  run_pipeline c w; cbn; try exact I; do 2 eexists;
    (split; [reflexivity |]); (split; [reflexivity |]);
    (split; [rewrite <- ?app_assoc; reflexivity |]); cbn;
    (split;
     [ eapply perm_trans;
       [ repeat apply record_perm_app; apply Permutation_refl
       | cbn; rewrite ?app_nil_r, <- ?app_assoc; reflexivity ]
     | repeat apply record_sorted; constructor ]).
Qed.

(** C6: if a stage up to semantic analysis reported an error-severity
    diagnostic, the Emitter is not invoked, nothing is written and the run
    fails; if every diagnostic is a warning, the Emitter is invoked and the
    run succeeds exactly when emission succeeds. *)
Theorem compile_errors_block_emission (c : Compiler) (w : World) :
  let '((r, c'), w') := compile c w in
  exists evs, trace w' = trace w ++ evs /\
    (has_error (flat_map stage_diags evs) = true ->
       (forall b, ~ In (EvEmit b) evs) /\ (forall p, ~ In (EvWrite p) evs) /\
       fs_written w' = fs_written w /\ exists e, r = Err e) /\
    (has_error (flat_map stage_diags evs) = false ->
       (exists b, In (EvEmit b) evs) /\ (r = Ok tt <-> In (EvEmit true) evs)).
Proof.
  run_pipeline c w; cbn; eexists;
    (split; [rewrite <- ?app_assoc; reflexivity |]);
    cbn [app flat_map stage_diags]; rewrite ?app_nil_r, ?has_error_app;
    rewrite ?has_error_record in *; cbn [has_error existsb orb] in *;
    rewrite ?Bool.orb_assoc in *;
    (split; intro Hx); try congruence.
  all: repeat split; try (intros ? Hin; simpl in Hin; intuition discriminate);
         eauto.
  all: first [ exists true; simpl; tauto | exists false; simpl; tauto
             | intros _; simpl; tauto | intro Hy; discriminate Hy
             | intro Hy; simpl in Hy; intuition discriminate ].
Qed.

(** C9: [Compiler::new] on a missing input path fails with [IOError]
    right after the load attempt: the output path is not even checked and
    no file is written; [prepare_output] never writes a file. *)
Theorem new_missing_input (ip op : path) (w : World)
    (Hmissing : fs_read w ip = None) :
  let '(r, w') := new ip op w in
  r = Err (IOError ip) /\ fs_written w' = fs_written w /\
  trace w' = trace w ++ [EvLoad ip] /\
  (forall p w0, fs_written (snd (prepare_output p w0)) = fs_written w0).
Proof.
  unfold new, load, log, read_file, bind, ret. cbn. rewrite Hmissing. cbn.
  repeat split.
Qed.

End Stages.

End Pipeline.

(* ------------------------------------------------------------------ *)
(** * A concrete instance of the pipeline

    A toy language, used to run the definitions on concrete inputs: every
    character is a token, ['?'] is an unrecognized character (a lexical
    error, skipped) and ['!'] draws a lexer warning; parsing and analysis
    accept everything and the artifact is the text of the tokens. *)
Module Toy.
Import Pipeline.
Local Open Scope string_scope.

Definition sp (i : nat) : Span := mkSpan i (S i) 1 (S i).

Fixpoint lex_from (i : nat) (s : string) : list nat * list Diagnostic :=
  match s with
  | EmptyString => ([], [])
  | String ch rest =>
      let '(toks, ds) := lex_from (S i) rest in
      if Ascii.eqb ch "?"%char
      then (toks, mkDiag SevError LexError "unrecognized character" (sp i) [] :: ds)
      else if Ascii.eqb ch "!"%char
      then (Ascii.nat_of_ascii ch :: toks,
            mkDiag SevWarning LexError "suspicious character" (sp i) [] :: ds)
      else (Ascii.nat_of_ascii ch :: toks, ds)
  end.

Definition tokenize (sf : SourceFile) : list nat * list Diagnostic :=
  lex_from 0 (sf_text sf).

Definition parse (toks : list nat) : list nat * list Diagnostic := (toks, []).

Definition analyze (t : list nat) : list nat * list Diagnostic := (t, []).

Definition emit (t : list nat) : result string string :=
  Ok (string_of_list_ascii (map Ascii.ascii_of_nat t)).

Definition valid_encoding (s : string) : bool := true.

Definition parent (p : path) : path := "out".

Definition world : World :=
  mkWorld (fun p => if String.eqb p "main.am" then Some "ab!"
                    else if String.eqb p "bad.am" then Some "a?b?"
                    else None)
          (fun d => String.eqb d "out") (fun _ => true) [] [].

Definition new := Pipeline.new valid_encoding parent.

Definition compile := Pipeline.compile nat (list nat) tokenize parse analyze emit.

(** [String] field of the Rust compiler: empty until populated. *)
Definition contents_text (c : Compiler) : string :=
  match contents c with Some s => s | None => "" end.

Definition run_main (cli : Driver.Cli) : result unit Error * World * list string :=
  Driver.main Compiler Error World new compile contents_text cli world.

Example toy_main_ok :
  snd (run_main (Driver.mkCli (Some (Driver.Compile "main.am" "out/main.js"))))
  = ["ab!"].
Proof. reflexivity. Qed.

Example toy_main_other :
  run_main (Driver.mkCli (Some (Driver.OtherCommand "fmt"))) = (Ok tt, world, []).
Proof. reflexivity. Qed.

Example toy_compile_warning :
  match new "main.am" "out/main.js" world with
  | (Ok c, w1) =>
      let '((r, c'), w2) := compile c w1 in
      r = Ok tt /\ contents c' = Some "ab!" /\ length (diagnostics c') = 1 /\
      fs_written w2 = [("out/main.js", "ab!")]
  | _ => False
  end.
Proof. vm_compute. repeat split. Qed.

Example toy_compile_two_errors :
  match new "bad.am" "out/main.js" world with
  | (Ok c, w1) =>
      let '((r, c'), w2) := compile c w1 in
      map pos (diagnostics c') = [1; 3] /\ contents c' = None /\
      r = Err (CompileError (diagnostics c')) /\ fs_written w2 = []
  | _ => False
  end.
Proof. vm_compute. repeat split. Qed.

Example toy_new_missing :
  fst (new "missing.am" "out/main.js" world) = Err (IOError "missing.am").
Proof. reflexivity. Qed.

(** Witness of C9 at the missing path ["missing.am"]. *)
Lemma new_missing_input_witness :
  fs_read world "missing.am" = None /\
  (let '(r, w') := Pipeline.new valid_encoding parent "missing.am" "out/main.js" world in
   r = Err (IOError "missing.am") /\ fs_written w' = fs_written world /\
   trace w' = (trace world ++ [EvLoad "missing.am"])%list /\
   (forall p w0, fs_written (snd (prepare_output parent p w0)) = fs_written w0)).
Proof.
  split; [reflexivity |].
  apply (new_missing_input valid_encoding parent "missing.am" "out/main.js" world).
  reflexivity.
Defined.

End Toy.
